(** * modusdb C++ wrapper: handle lifecycle and boundary contract

    A shallow embedding of [python/src/modusdb_wrapper.cpp] and
    [modusdb_wrapper.hpp]: the [Engine] and [Namespace] classes, the
    [checkError] helper and the twelve [extern "C"] functions they call.

    - the engine behind the [extern "C"] functions is an arbitrary
      transition function [boundary] on an arbitrary state;
    - a [char*] handed over by the boundary is an address in a heap of
      C strings owned by the far side until [free] is called on it;
    - a C++ exception is the [Thrown] outcome of a computation. *)

From Stdlib Require Import ZArith String Ascii List Lia.
From stdpp Require Import base option list gmap strings fin_maps.
Import ListNotations.

#[local] Set Warnings "-clear-no-such-hyp".

Local Open Scope string_scope.
Local Open Scope list_scope.
Local Open Scope Z_scope.

(** ** Values *)

(** [std::runtime_error(what_arg)]: the only exception type the wrapper
    throws. *)
Inductive exception : Type :=
| runtime_error (what_arg : string).

(** [class Engine { uint64_t engine_handle; }] *)
Record Engine : Type := { engine_handle : Z }.

(** [class Namespace { uint64_t namespace_handle; }] *)
Record Namespace : Type := { namespace_handle : Z }.

(** The implicitly declared copy constructor of [Engine]: the header
    declares a destructor but neither deletes nor defines copying, so a
    copy is a memberwise copy of [engine_handle]. *)
Definition Engine_copy (other : Engine) : Engine :=
  {| engine_handle := engine_handle other |}.

(** [char*]: [None] is [nullptr], [Some p] an address. *)
Definition addr : Type := N.
Definition cptr : Type := option addr.

(** A character buffer read as a C string: the characters before the
    first NUL.  This is what the callee sees of [std::string::c_str()]
    and what [std::string] and [json::parse], built from a [char*],
    see of a buffer the boundary allocated. *)
Fixpoint c_str (s : string) : string :=
  match s with
  | EmptyString => EmptyString
  | String a rest =>
      if Ascii.eqb a Ascii.zero then EmptyString else String a (c_str rest)
  end.

(** ** The boundary *)

(** The [extern "C"] declarations, one constructor per function, with
    the arguments passed by value.  The [char**] out-parameters are in
    [response]. *)
Inductive call : Type :=
| NewEngineC (dataDir : string)
| CreateNamespaceC (engine : Z)
| GetNamespaceC (engine nsID : Z)
| DropAllC (engine : Z)
| LoadC (engine : Z) (schemaPath dataPath : string)
| LoadDataC (engine : Z) (dataDir : string)
| CloseC (engine : Z)
| GetNamespaceIDC (ns : Z)
| DropDataC (ns : Z)
| AlterSchemaC (ns : Z) (schema : string)
| MutateC (ns : Z) (mutations : string)
| QueryC (ns : Z) (query : string).

(** What a call hands back: the [uint64_t] return value, the contents
    of the buffer stored through [char** result] and of the buffer
    stored through [char** err] ([None]: the slot is left [nullptr]).
    A buffer holds whatever bytes the far side wrote; a reader of the
    [char*] sees them up to the first NUL.  A function reads only the
    fields its signature has. *)
Record response : Type := {
  ret_val : Z;
  out_result : option string;
  out_err : option string
}.

Inductive event : Type :=
| Ecall (c : call)
| Efree (p : addr).

Definition calls_of (evs : list event) : list call :=
  omap (fun ev => match ev with Ecall c => Some c | Efree _ => None end) evs.

Definition frees_of (evs : list event) : list addr :=
  omap (fun ev => match ev with Efree p => Some p | Ecall _ => None end) evs.

Definition is_CloseC (c : call) : bool :=
  match c with CloseC _ => true | _ => false end.

(** ** Computations *)

Inductive outcome (A : Type) : Type :=
| Returned (a : A)
| Thrown (e : exception)
| Undefined.
Arguments Returned {A} a.
Arguments Thrown {A} e.
Arguments Undefined {A}.

(** A computation over a state [S]. *)
Definition M (S A : Type) : Type := S -> outcome A * S.

Definition ret {S A} (a : A) : M S A := fun s => (Returned a, s).

Definition throw {S A} (e : exception) : M S A := fun s => (Thrown e, s).

Definition bind {S A B} (m : M S A) (k : A -> M S B) : M S B :=
  fun s =>
    match m s with
    | (Returned a, s') => k a s'
    | (Thrown e, s') => (Thrown e, s')
    | (Undefined, s') => (Undefined, s')
    end.

Notation "x <- m ;; k" := (bind m (fun x => k))
  (at level 100, m at next level, right associativity).
Notation "m ;;; k" := (bind m (fun _ => k))
  (at level 100, right associativity).

(** A method body runs on the pair of [*this] and the rest of the
    state. *)
Definition this {T W} : M (T * W) T := fun s => (Returned (fst s), s).

Definition assign_this {T W} (t : T) : M (T * W) unit :=
  fun s => (Returned tt, (t, snd s)).

Definition lift {T W A} (m : M W A) : M (T * W) A :=
  fun s => let '(o, w') := m (snd s) in (o, (fst s, w')).

Section Wrapper.

(** The engine on the far side: its state and its reaction to each
    call. *)
Context {G : Type}.
Variable boundary : call -> G -> G * response.

Record world : Type := World {
  engine_side : G;
  heap : gmap N string;      (* live boundary-allocated C strings *)
  brk : N;                   (* next address the allocator hands out *)
  trace : list event         (* boundary calls and frees, oldest first *)
}.

(** Calling an [extern "C"] function. *)
Definition extern (c : call) : M world response :=
  fun w =>
    let '(g', r) := boundary c (engine_side w) in
    (Returned r,
     {| engine_side := g'; heap := heap w; brk := brk w;
        trace := trace w ++ [Ecall c] |}).

(** The callee storing a freshly allocated C string through a
    [char**] (or leaving it [nullptr]). *)
Definition c_string (s : option string) : M world cptr :=
  match s with
  | None => ret None
  | Some str =>
      fun w =>
        (Returned (Some (brk w)),
         {| engine_side := engine_side w;
            heap := <[brk w := str]> (heap w);
            brk := N.succ (brk w);
            trace := trace w |})
  end.

(** Reading the C string behind a [char*] ([std::string(p)],
    [json::parse(p)]): the characters of the buffer before its first
    NUL. *)
Definition read (p : addr) : M world string :=
  fun w =>
    match heap w !! p with
    | Some s => (Returned (c_str s), w)
    | None => (Undefined, w)
    end.

(** [free(p)] for a non-null [p]. *)
Definition free (p : addr) : M world unit :=
  fun w =>
    match heap w !! p with
    | Some _ =>
        (Returned tt,
         {| engine_side := engine_side w;
            heap := delete p (heap w);
            brk := brk w;
            trace := trace w ++ [Efree p] |})
    | None => (Undefined, w)
    end.

(** [void checkError(char** err)] *)
Definition checkError (err : cptr) : M world unit :=
  match err with
  | Some p =>
      error_msg <- read p ;;
      free p ;;;
      throw (runtime_error error_msg)
  | None => ret tt
  end.

(** *** Engine *)

(** [Engine::Engine(const std::string& dataDir)] *)
Definition Engine_ctor (dataDir : string) : M world Engine :=
  r <- extern (NewEngineC (c_str dataDir)) ;;
  err <- c_string (out_err r) ;;
  let engine_handle := ret_val r in
  checkError err ;;;
  if engine_handle =? 0
  then throw (runtime_error "Failed to create engine")
  else ret {| engine_handle := engine_handle |}.

(** [void Engine::close()] *)
Definition close : M (Engine * world) unit :=
  e <- this ;;
  if negb (engine_handle e =? 0) then
    lift (extern (CloseC (engine_handle e))) ;;;
    assign_this {| engine_handle := 0 |}
  else ret tt.

(** [Engine::~Engine()] *)
Definition Engine_dtor : M (Engine * world) unit :=
  e <- this ;;
  if negb (engine_handle e =? 0) then close else ret tt.

(** [Namespace Engine::createNamespace()] *)
Definition createNamespace : M (Engine * world) Namespace :=
  e <- this ;;
  r <- lift (extern (CreateNamespaceC (engine_handle e))) ;;
  err <- lift (c_string (out_err r)) ;;
  let ns := ret_val r in
  lift (checkError err) ;;;
  ret {| namespace_handle := ns |}.

(** [Namespace Engine::getNamespace(uint64_t nsID)] *)
Definition getNamespace (nsID : Z) : M (Engine * world) Namespace :=
  e <- this ;;
  r <- lift (extern (GetNamespaceC (engine_handle e) nsID)) ;;
  err <- lift (c_string (out_err r)) ;;
  let ns := ret_val r in
  lift (checkError err) ;;;
  ret {| namespace_handle := ns |}.

(** [void Engine::dropAll()] *)
Definition dropAll : M (Engine * world) unit :=
  e <- this ;;
  r <- lift (extern (DropAllC (engine_handle e))) ;;
  err <- lift (c_string (out_err r)) ;;
  lift (checkError err).

(** [void Engine::load(schemaPath, dataPath)] *)
Definition load (schemaPath dataPath : string) : M (Engine * world) unit :=
  e <- this ;;
  r <- lift (extern (LoadC (engine_handle e)
                           (c_str schemaPath) (c_str dataPath))) ;;
  err <- lift (c_string (out_err r)) ;;
  lift (checkError err).

(** [void Engine::loadData(dataDir)] *)
Definition loadData (dataDir : string) : M (Engine * world) unit :=
  e <- this ;;
  r <- lift (extern (LoadDataC (engine_handle e) (c_str dataDir))) ;;
  err <- lift (c_string (out_err r)) ;;
  lift (checkError err).

(** *** The JSON library

    [nlohmann::json] is a third-party header; the wrapper uses
    [json::parse] and [get<std::map<std::string, uint64_t>>()].  The
    value type and the conversion follow the library's [value_t] and
    [from_json] overloads; the text parser and the [double] to
    [uint64_t] conversion of the platform are taken as given. *)

Context {double : Type}.
Variable double_to_uint64 : double -> Z.

#[local] Set Warnings "-register-all".

(** [basic_json]: the tagged union behind [value_t].  The elements of
    an object are listed in the iteration order of its [std::map]. *)
Inductive json : Type :=
| j_null
| j_object (elems : list (string * json))
| j_array (elems : list json)
| j_string (s : string)
| j_boolean (b : bool)
| j_number_integer (n : Z)
| j_number_unsigned (n : Z)
| j_number_float (d : double)
| j_binary
| j_discarded.

(** [nlohmann::json::exception]: [id] and [what()]. *)
Record json_exception : Type := { exc_id : Z; json_what : string }.

Variable json_parse : string -> json_exception + json.

(** [basic_json::type_name()] *)
Definition type_name (j : json) : string :=
  match j with
  | j_null => "null"
  | j_object _ => "object"
  | j_array _ => "array"
  | j_string _ => "string"
  | j_boolean _ => "boolean"
  | j_binary => "binary"
  | j_discarded => "discarded"
  | j_number_integer _ | j_number_unsigned _ | j_number_float _ => "number"
  end.

(** [basic_json::is_number()] *)
Definition is_number (j : json) : bool :=
  match j with
  | j_number_integer _ | j_number_unsigned _ | j_number_float _ => true
  | _ => false
  end.

(** [type_error::create(302, what_arg)] *)
Definition type_error_302 (what_arg : string) : json_exception :=
  {| exc_id := 302;
     json_what := "[json.exception.type_error.302] " +:+ what_arg |}.

(** [get_arithmetic_value(j, val)] at [uint64_t]: every number kind is
    converted with [static_cast<uint64_t>]; for the signed kind that
    is reduction modulo 2^64. *)
Definition get_arithmetic_value (j : json) : json_exception + Z :=
  match j with
  | j_number_unsigned n => inr n
  | j_number_integer n => inr (n mod 2 ^ 64)
  | j_number_float d => inr (double_to_uint64 d)
  | _ => inl (type_error_302 ("type must be number, but is " +:+ type_name j))
  end.

(** [std::map::insert] through [std::inserter]: a key already present
    keeps its value. *)
Definition map_insert (k : string) (v : Z) (m : gmap string Z)
  : gmap string Z :=
  match m !! k with
  | Some _ => m
  | None => <[k := v]> m
  end.

(** The [std::transform] loop of [from_json] for a map type: elements
    are converted in order, the first failing one throws. *)
Fixpoint transform (elems : list (string * json)) (ret : gmap string Z)
  : json_exception + gmap string Z :=
  match elems with
  | [] => inr ret
  | (k, v) :: rest =>
      match get_arithmetic_value v with
      | inl e => inl e
      | inr n => transform rest (map_insert k n ret)
      end
  end.

(** [j.get<std::map<std::string, uint64_t>>()] *)
Definition get_map (j : json) : json_exception + gmap string Z :=
  match j with
  | j_object elems => transform elems ∅
  | _ => inl (type_error_302 ("type must be object, but is " +:+ type_name j))
  end.

(** The body of the [try] block in [Namespace::mutate]. *)
Definition decode (text : string) : json_exception + gmap string Z :=
  match json_parse text with
  | inl e => inl e
  | inr j => get_map j
  end.

(** *** Namespace *)

(** [uint64_t Namespace::getId() const] *)
Definition getId : M (Namespace * world) Z :=
  ns <- this ;;
  r <- lift (extern (GetNamespaceIDC (namespace_handle ns))) ;;
  ret (ret_val r).

(** [void Namespace::dropData()] *)
Definition dropData : M (Namespace * world) unit :=
  ns <- this ;;
  r <- lift (extern (DropDataC (namespace_handle ns))) ;;
  err <- lift (c_string (out_err r)) ;;
  lift (checkError err).

(** [void Namespace::alterSchema(schema)] *)
Definition alterSchema (schema : string) : M (Namespace * world) unit :=
  ns <- this ;;
  r <- lift (extern (AlterSchemaC (namespace_handle ns) (c_str schema))) ;;
  err <- lift (c_string (out_err r)) ;;
  lift (checkError err).

(** [std::map<std::string, uint64_t> Namespace::mutate(mutations)] *)
Definition mutate (mutations : string)
  : M (Namespace * world) (gmap string Z) :=
  ns <- this ;;
  r <- lift (extern (MutateC (namespace_handle ns) (c_str mutations))) ;;
  result <- lift (c_string (out_result r)) ;;
  err <- lift (c_string (out_err r)) ;;
  lift (checkError err) ;;;
  match result with
  | None => throw (runtime_error "No result returned from mutation")
  | Some p =>
      text <- lift (read p) ;;
      match decode text with
      | inr resultMap =>
          lift (free p) ;;;
          ret resultMap
      | inl e =>
          lift (free p) ;;;
          throw (runtime_error
                   ("Failed to parse mutation result: " +:+ json_what e))
      end
  end.

(** [std::string Namespace::query(queryStr)] *)
Definition query (queryStr : string) : M (Namespace * world) string :=
  ns <- this ;;
  r <- lift (extern (QueryC (namespace_handle ns) (c_str queryStr))) ;;
  result <- lift (c_string (out_result r)) ;;
  err <- lift (c_string (out_err r)) ;;
  lift (checkError err) ;;;
  match result with
  | None => throw (runtime_error "No result returned from query")
  | Some p =>
      response <- lift (read p) ;;
      lift (free p) ;;;
      ret response
  end.

(** *** The failure kinds of the specification

    The wrapper throws [std::runtime_error] throughout; the kinds differ
    by the throw site and its message. *)

(** [checkError]: the engine's message. *)
Definition BoundaryError (msg : string) : exception := runtime_error msg.

(** [Engine::Engine]: no error reported, handle 0. *)
Definition HandleCreationFailed : exception :=
  runtime_error "Failed to create engine".

(** [Namespace::mutate] and [Namespace::query]: no error reported,
    [result == nullptr]. *)
Definition EmptyResultError_mutate : exception :=
  runtime_error "No result returned from mutation".

Definition EmptyResultError_query : exception :=
  runtime_error "No result returned from query".

(** [Namespace::mutate]: the handler of [nlohmann::json::exception]. *)
Definition DecodeError (e : json_exception) : exception :=
  runtime_error ("Failed to parse mutation result: " +:+ json_what e).

(** *** Sequences of lifecycle calls *)


(** The number of [CloseC] calls recorded so far. *)
Definition close_calls (w : world) : nat :=
  length (List.filter is_CloseC (calls_of (trace w))).

(** The state after [CloseC(h)] returned. *)
Definition after_CloseC (h : Z) (w : world) : world :=
  {| engine_side := fst (boundary (CloseC h) (engine_side w));
     heap := heap w; brk := brk w;
     trace := trace w ++ [Ecall (CloseC h)] |}.

(** *** The operations with an error slot

    The ten methods whose boundary function takes a [char** err], as
    calls on a given object, and what each hands back. *)
Inductive operation : Type :=
| op_open (dataDir : string)
| op_createNamespace (e : Engine)
| op_getNamespace (e : Engine) (nsID : Z)
| op_dropAll (e : Engine)
| op_load (e : Engine) (schemaPath dataPath : string)
| op_loadData (e : Engine) (dataDir : string)
| op_dropData (ns : Namespace)
| op_alterSchema (ns : Namespace) (schema : string)
| op_mutate (ns : Namespace) (mutations : string)
| op_query (ns : Namespace) (queryStr : string).

Inductive value : Type :=
| v_engine (e : Engine)
| v_namespace (ns : Namespace)
| v_void
| v_map (m : gmap string Z)
| v_string (s : string).

(** Running a method on [obj] and keeping what the caller receives. *)
Definition on {T A} (obj : T) (m : M (T * world) A) (f : A -> value)
  : M world value :=
  fun w =>
    match m (obj, w) with
    | (Returned a, (_, w')) => (Returned (f a), w')
    | (Thrown e, (_, w')) => (Thrown e, w')
    | (Undefined, (_, w')) => (Undefined, w')
    end.

Definition perform (op : operation) : M world value :=
  match op with
  | op_open dataDir => e <- Engine_ctor dataDir ;; ret (v_engine e)
  | op_createNamespace e => on e createNamespace v_namespace
  | op_getNamespace e nsID => on e (getNamespace nsID) v_namespace
  | op_dropAll e => on e dropAll (fun _ => v_void)
  | op_load e schemaPath dataPath =>
      on e (load schemaPath dataPath) (fun _ => v_void)
  | op_loadData e dataDir => on e (loadData dataDir) (fun _ => v_void)
  | op_dropData ns => on ns dropData (fun _ => v_void)
  | op_alterSchema ns schema => on ns (alterSchema schema) (fun _ => v_void)
  | op_mutate ns mutations => on ns (mutate mutations) v_map
  | op_query ns queryStr => on ns (query queryStr) v_string
  end.

(** The boundary function an operation calls, with its arguments. *)
Definition boundary_call (op : operation) : call :=
  match op with
  | op_open dataDir => NewEngineC (c_str dataDir)
  | op_createNamespace e => CreateNamespaceC (engine_handle e)
  | op_getNamespace e nsID => GetNamespaceC (engine_handle e) nsID
  | op_dropAll e => DropAllC (engine_handle e)
  | op_load e schemaPath dataPath =>
      LoadC (engine_handle e) (c_str schemaPath) (c_str dataPath)
  | op_loadData e dataDir => LoadDataC (engine_handle e) (c_str dataDir)
  | op_dropData ns => DropDataC (namespace_handle ns)
  | op_alterSchema ns schema =>
      AlterSchemaC (namespace_handle ns) (c_str schema)
  | op_mutate ns mutations =>
      MutateC (namespace_handle ns) (c_str mutations)
  | op_query ns queryStr => QueryC (namespace_handle ns) (c_str queryStr)
  end.

(** What the boundary answers to an operation started in [w]. *)
Definition answer (op : operation) (w : world) : response :=
  snd (boundary (boundary_call op) (engine_side w)).

(** [MutateC] and [QueryC] are the functions with a [char** result]. *)
Definition result_slot (op : operation) (r : response) : option string :=
  match op with
  | op_mutate _ _ | op_query _ _ => out_result r
  | _ => None
  end.

(** The addresses of the buffers handed out for an answer when the
    allocator stands at [b]: the result buffer first, then the error
    buffer. *)
Definition handed_out (op : operation) (r : response) (b : addr)
  : list addr :=
  match result_slot op r, out_err r with
  | Some _, Some _ => [b; N.succ b]
  | Some _, None | None, Some _ => [b]
  | None, None => []
  end.

(** [m] leaves [*this] as it found it, whatever the handle, and makes
    exactly one boundary call, [c] applied to the object. *)
Definition forwards_handle {A} (m : M (Engine * world) A)
  (c : Engine -> call) : Prop :=
  forall e w, exists o w',
    m (e, w) = (o, (e, w'))
    /\ calls_of (trace w') = calls_of (trace w) ++ [c e].

(** [m] leaves the [Namespace] as it found it and makes exactly one
    boundary call, [c] applied to the object. *)
Definition forwards_namespace_handle {A} (m : M (Namespace * world) A)
  (c : Namespace -> call) : Prop :=
  forall ns w, exists o w',
    m (ns, w) = (o, (ns, w'))
    /\ calls_of (trace w') = calls_of (trace w) ++ [c ns].

(** The five operations that return [void]. *)
Definition returns_void (op : operation) : bool :=
  match op with
  | op_dropAll _ | op_load _ _ _ | op_loadData _ _
  | op_dropData _ | op_alterSchema _ _ => true
  | _ => false
  end.

(** *** A caller's sequence of calls on one engine

    The public methods of [Engine] as a caller invokes them, one after
    the other on the same object, each in a handler that catches the
    exception and carries on. *)
Inductive engine_method : Type :=
| m_createNamespace
| m_getNamespace (nsID : Z)
| m_dropAll
| m_load (schemaPath dataPath : string)
| m_loadData (dataDir : string)
| m_close.

Definition invoke (m : engine_method) : M (Engine * world) unit :=
  match m with
  | m_createNamespace => createNamespace ;;; ret tt
  | m_getNamespace nsID => getNamespace nsID ;;; ret tt
  | m_dropAll => dropAll
  | m_load schemaPath dataPath => load schemaPath dataPath
  | m_loadData dataDir => loadData dataDir
  | m_close => close
  end.

(** [try { e.m(...); } catch (const std::exception&) {}] *)
Definition attempt (m : engine_method) : M (Engine * world) unit :=
  fun s =>
    match invoke m s with
    | (Thrown _, s') => (Returned tt, s')
    | other => other
    end.

Fixpoint session (ms : list engine_method) : M (Engine * world) unit :=
  match ms with
  | [] => ret tt
  | m :: rest => attempt m ;;; session rest
  end.

End Wrapper.

(** ** Overlapping calls of [close()]

    [Engine::close] at the granularity of its three accesses to
    [engine_handle]: the test, the read for the [CloseC] argument and
    the store of 0.  Threads calling [close()] on one [Engine] take
    these steps in an order given by a schedule. *)

Inductive pc : Type :=
| at_check     (* about to evaluate [engine_handle != 0] *)
| at_call      (* about to call [CloseC(engine_handle)] *)
| at_store     (* about to execute [engine_handle = 0] *)
| finished.

Record shared : Type := {
  s_engine : Engine;
  s_pcs : list pc;           (* one program counter per thread *)
  s_calls : list call        (* boundary calls so far, oldest first *)
}.

Definition set_pc (i : nat) (l : pc) (s : shared) : shared :=
  {| s_engine := s_engine s; s_pcs := <[i := l]> (s_pcs s);
     s_calls := s_calls s |}.

Definition thread_step (i : nat) (s : shared) : shared :=
  match s_pcs s !! i with
  | Some at_check =>
      if negb (engine_handle (s_engine s) =? 0)
      then set_pc i at_call s
      else set_pc i finished s
  | Some at_call =>
      set_pc i at_store
        {| s_engine := s_engine s; s_pcs := s_pcs s;
           s_calls := s_calls s ++ [CloseC (engine_handle (s_engine s))] |}
  | Some at_store =>
      set_pc i finished
        {| s_engine := {| engine_handle := 0 |}; s_pcs := s_pcs s;
           s_calls := s_calls s |}
  | Some finished | None => s
  end.

Definition run_schedule (schedule : list nat) (s : shared) : shared :=
  fold_left (fun s i => thread_step i s) schedule s.

(** [n] threads, each about to enter [close()] on the same engine. *)
Definition entering (e : Engine) (n : nat) : shared :=
  {| s_engine := e; s_pcs := replicate n at_check; s_calls := [] |}.

(** The schedule in which the threads of [order] run [close()] one after
    the other, each to completion. *)
Definition one_at_a_time (order : list nat) : list nat :=
  flat_map (fun i => [i; i; i]) order.

(** No thread is between the test and the store, and the handle is
    already the sentinel. *)
Definition quiet (s : shared) : Prop :=
  engine_handle (s_engine s) = 0
  /\ Forall (fun l => l = at_check \/ l = finished) (s_pcs s).

(** The engine handle a boundary call carries, if it takes one. *)
Definition engine_arg (c : call) : option Z :=
  match c with
  | CreateNamespaceC h | GetNamespaceC h _ | DropAllC h
  | LoadC h _ _ | LoadDataC h _ | CloseC h => Some h
  | _ => None
  end.

(** The string holds no NUL character. *)
Fixpoint nul_free (s : string) : bool :=
  match s with
  | EmptyString => true
  | String a rest => negb (Ascii.eqb a Ascii.zero) && nul_free rest
  end.




(** The threads that have made their [CloseC] call or have left
    [close()] without one. *)
Definition past_check (l : pc) : nat :=
  match l with
  | at_store | finished => 1
  | at_check | at_call => 0
  end.

Definition count_past_check (pcs : list pc) : nat :=
  foldr (fun l k => (past_check l + k)%nat) 0%nat pcs.

(** What holds of the shared state in every schedule started by
    [entering] an engine with handle [h]. *)
Definition reachable_from (h : Z) (s : shared) : Prop :=
  (engine_handle (s_engine s) = h \/ engine_handle (s_engine s) = 0)
  /\ Forall (fun c => c = CloseC h \/ c = CloseC 0) (s_calls s)
  /\ (length (s_calls s) <= count_past_check (s_pcs s))%nat
  /\ (s_calls s = [] ->
      engine_handle (s_engine s) = h /\ count_past_check (s_pcs s) = 0%nat)
  /\ (s_calls s <> [] -> exists rest, s_calls s = CloseC h :: rest).

(** ** Sample boundary behaviour for the examples *)

(** A boundary that answers from a script: each call consumes the next
    response. *)
Definition scripted (c : call) (script : list response)
  : list response * response :=
  match script with
  | r :: rest => (rest, r)
  | [] => ([], {| ret_val := 0; out_result := None; out_err := None |})
  end.

Definition ok (h : Z) : response :=
  {| ret_val := h; out_result := None; out_err := None |}.

Definition replied (payload : string) : response :=
  {| ret_val := 0; out_result := Some payload; out_err := None |}.

Definition fresh_world (script : list response) : world :=
  {| engine_side := script; heap := ∅; brk := 0%N; trace := [] |}.

Definition dquote : string := String (ascii_of_nat 34) EmptyString.

(** The text [{"a":-1,"b":7}]. *)
Definition sample_payload : string :=
  "{" +:+ dquote +:+ "a" +:+ dquote +:+ ":-1,"
      +:+ dquote +:+ "b" +:+ dquote +:+ ":7}".

(** [json::parse] on the text of the examples: [sample_payload] is an
    object whose first number has a minus sign and fits [int64_t]
    ([number_integer]) and whose second has none and fits [uint64_t]
    ([number_unsigned]).  Other texts are not needed and are answered
    with a parse error. *)
Definition sample_parse (text : string) : json_exception + @json unit :=
  if String.eqb text sample_payload then
    inr (j_object [("a", j_number_integer (-1)); ("b", j_number_unsigned 7)])
  else
    inl {| exc_id := 101;
           json_what := "[json.exception.parse_error.101] parse error" |}.

(** The examples hold no floating-point number. *)
Definition sample_cast (d : unit) : Z := 0.

(** * Properties *)

(** ** C strings *)


Lemma c_str_verbatim s : nul_free s = true -> c_str s = s.
Proof.
  induction s as [|a s IH]; [reflexivity|].
  simpl. destruct (Ascii.eqb a Ascii.zero); [discriminate|].
  simpl. intros Hs. now rewrite IH.
Qed.



Section WrapperFacts.

Context {G : Type} (boundary : call -> G -> G * response).
Context {double : Type} (double_to_uint64 : double -> Z).
Context (json_parse : string -> json_exception + @json double).

(** Symbolic execution of a method body: unfold the computation, then
    resolve reads of buffers that were just allocated. *)
Ltac run :=
  repeat (progress
    (unfold bind, ret, throw, this, lift, assign_this, extern, c_string,
       checkError, read, free, on;
     simpl;
     rewrite ?lookup_insert_eq)).

Lemma calls_of_app evs1 evs2 :
  calls_of (evs1 ++ evs2) = calls_of evs1 ++ calls_of evs2.
Proof. unfold calls_of. apply omap_app. Qed.

Lemma frees_of_app evs1 evs2 :
  frees_of (evs1 ++ evs2) = frees_of evs1 ++ frees_of evs2.
Proof. unfold frees_of. apply omap_app. Qed.

(** ** Lifecycle of the engine handle *)

Lemma close_calls_after_CloseC h (w : world) :
  close_calls (after_CloseC boundary h w) = S (close_calls w).
Proof.
  unfold close_calls, after_CloseC; simpl.
  rewrite calls_of_app, List.filter_app, length_app.
  simpl. lia.
Qed.

Lemma close_live e w :
  engine_handle e <> 0 ->
  close boundary (e, w)
  = (Returned tt,
     ({| engine_handle := 0 |}, after_CloseC boundary (engine_handle e) w)).
Proof.
  intros Hlive. apply Z.eqb_neq in Hlive.
  unfold close, after_CloseC; run.
  rewrite Hlive; run.
  destruct (boundary (CloseC (engine_handle e)) (engine_side w)); reflexivity.
Qed.


Lemma Engine_dtor_closed (w : world) :
  Engine_dtor boundary ({| engine_handle := 0 |}, w)
  = (Returned tt, ({| engine_handle := 0 |}, w)).
Proof. reflexivity. Qed.

Lemma Engine_dtor_live e w :
  engine_handle e <> 0 ->
  Engine_dtor boundary (e, w)
  = (Returned tt,
     ({| engine_handle := 0 |}, after_CloseC boundary (engine_handle e) w)).
Proof.
  intros Hlive. unfold Engine_dtor, bind, this; simpl.
  rewrite (proj2 (Z.eqb_neq _ _) Hlive); simpl.
  now apply close_live.
Qed.





(** C9. [Engine] is copyable: after a live [Engine] is copied, the
    destructor of the copy and the destructor of the original each find
    a non-sentinel handle, and [CloseC] is called twice with the same
    handle. *)
Theorem copied_engine_closes_twice e (w : world) :
  engine_handle e <> 0 ->
  exists w1 w2,
    Engine_dtor boundary (Engine_copy e, w)
    = (Returned tt, ({| engine_handle := 0 |}, w1))
    /\ Engine_dtor boundary (e, w1)
       = (Returned tt, ({| engine_handle := 0 |}, w2))
    /\ trace w2 = trace w ++ [Ecall (CloseC (engine_handle e));
                              Ecall (CloseC (engine_handle e))]
    /\ close_calls w2 = S (S (close_calls w)).
Proof.
  intros Hlive.
  exists (after_CloseC boundary (engine_handle e) w).
  exists (after_CloseC boundary (engine_handle e)
            (after_CloseC boundary (engine_handle e) w)).
  repeat split.
  - now apply (Engine_dtor_live (Engine_copy e)).
  - now apply Engine_dtor_live.
  - simpl. now rewrite <- app_assoc.
  - now rewrite !close_calls_after_CloseC.
Qed.

(** The five operations, one lemma each. *)
Ltac forwards :=
  intros e w; run;
  destruct (boundary _ _) as [g r]; run;
  destruct (out_err r) as [msg|]; run;
  eexists _, _; (split; [reflexivity|]); simpl;
  rewrite ?calls_of_app; simpl; now rewrite ?app_nil_r.

Lemma createNamespace_forwards :
  forwards_handle (createNamespace boundary)
    (fun e => CreateNamespaceC (engine_handle e)).
Proof. unfold createNamespace. forwards. Qed.

Lemma getNamespace_forwards nsID :
  forwards_handle (getNamespace boundary nsID)
    (fun e => GetNamespaceC (engine_handle e) nsID).
Proof. unfold getNamespace. forwards. Qed.

Lemma dropAll_forwards :
  forwards_handle (dropAll boundary) (fun e => DropAllC (engine_handle e)).
Proof. unfold dropAll. forwards. Qed.

Lemma load_forwards schemaPath dataPath :
  forwards_handle (load boundary schemaPath dataPath)
    (fun e => LoadC (engine_handle e) (c_str schemaPath) (c_str dataPath)).
Proof. unfold load. forwards. Qed.

Lemma loadData_forwards dataDir :
  forwards_handle (loadData boundary dataDir)
    (fun e => LoadDataC (engine_handle e) (c_str dataDir)).
Proof. unfold loadData. forwards. Qed.

(** C10. [createNamespace], [getNamespace], [dropAll], [load] and
    [loadData] neither test nor assign [engine_handle]: for every handle
    value, 0 included, each passes that value to its boundary function
    in its single boundary call and leaves the object as it was.  In
    particular an operation that follows [close()] passes the sentinel
    on. *)
Theorem engine_operations_forward_handle :
  forwards_handle (createNamespace boundary)
    (fun e => CreateNamespaceC (engine_handle e))
  /\ (forall nsID, forwards_handle (getNamespace boundary nsID)
        (fun e => GetNamespaceC (engine_handle e) nsID))
  /\ forwards_handle (dropAll boundary) (fun e => DropAllC (engine_handle e))
  /\ (forall schemaPath dataPath,
        forwards_handle (load boundary schemaPath dataPath)
          (fun e => LoadC (engine_handle e)
                      (c_str schemaPath) (c_str dataPath)))
  /\ (forall dataDir, forwards_handle (loadData boundary dataDir)
        (fun e => LoadDataC (engine_handle e) (c_str dataDir)))
  /\ (forall e w, engine_handle e <> 0 ->
        exists o w',
          (close boundary ;;; dropAll boundary) (e, w)
          = (o, ({| engine_handle := 0 |}, w'))
          /\ calls_of (trace w')
             = calls_of (trace w) ++ [CloseC (engine_handle e); DropAllC 0]).
Proof.
  split; [apply createNamespace_forwards|].
  split; [apply getNamespace_forwards|].
  split; [apply dropAll_forwards|].
  split; [apply load_forwards|].
  split; [apply loadData_forwards|].
  intros e w Hlive.
  destruct (dropAll_forwards {| engine_handle := 0 |}
              (after_CloseC boundary (engine_handle e) w))
    as (o & w' & Hrun & Hcalls).
  exists o, w'. unfold bind. rewrite close_live by assumption.
  split; [assumption|].
  rewrite Hcalls. simpl. rewrite calls_of_app. simpl.
  now rewrite <- app_assoc.
Qed.

(** ** Error translation *)

(** The constructor, the one handle-producing operation that tests the
    handle it received. *)
Lemma Engine_ctor_sentinel dataDir w :
  out_err (answer boundary (op_open dataDir) w) = None ->
  ret_val (answer boundary (op_open dataDir) w) = 0 ->
  fst (Engine_ctor boundary dataDir w) = Thrown HandleCreationFailed.
Proof.
  unfold answer, Engine_ctor; simpl; run.
  destruct (boundary _ _) as [g r]; run.
  intros -> ->; run. reflexivity.
Qed.

(** C2 (where the code departs from it). [createNamespace] and
    [getNamespace] do not test the handle they receive: when the
    boundary reports no error and returns 0, each returns a [Namespace]
    wrapping 0. *)
Theorem namespace_operations_wrap_sentinel op e nsID w :
  op = op_createNamespace e \/ op = op_getNamespace e nsID ->
  out_err (answer boundary op w) = None ->
  ret_val (answer boundary op w) = 0 ->
  fst (perform boundary double_to_uint64 json_parse op w)
  = Returned (v_namespace {| namespace_handle := 0 |}).
Proof.
  intros [-> | ->]; unfold answer; simpl;
    unfold createNamespace, getNamespace; run;
    destruct (boundary _ _) as [g r]; run;
    intros -> ->; reflexivity.
Qed.

(** What an operation throws when the boundary stores an error
    message: the C string behind [*err]. *)
Lemma reported_error_thrown op w msg :
  out_err (answer boundary op w) = Some msg ->
  fst (perform boundary double_to_uint64 json_parse op w)
  = Thrown (BoundaryError (c_str msg)).
Proof.
  unfold answer.
  destruct op; simpl;
    unfold Engine_ctor, createNamespace, getNamespace, dropAll, load,
      loadData, dropData, alterSchema, mutate, query; run;
    destruct (boundary _ _) as [g r]; run;
    intros ->; run;
    try reflexivity;
    destruct (out_result r) as [payload|]; run; reflexivity.
Qed.

(** C3. Whenever the boundary stores an error message, the operation
    throws a [std::runtime_error] and returns nothing, whatever return
    value or result string came with the message.  The exception's text
    is the C string behind [*err], the characters of the buffer up to
    its first NUL: for a buffer without an inner NUL, the reported text
    verbatim. *)
Theorem reported_error_is_thrown op w msg :
  out_err (answer boundary op w) = Some msg ->
  fst (perform boundary double_to_uint64 json_parse op w)
  = Thrown (BoundaryError (c_str msg))
  /\ (nul_free msg = true ->
      fst (perform boundary double_to_uint64 json_parse op w)
      = Thrown (BoundaryError msg)).
Proof.
  intros Herr. split; [now apply reported_error_thrown|].
  intros Hfree. rewrite (reported_error_thrown op w msg Herr).
  now rewrite c_str_verbatim.
Qed.

(** The outcome of [mutate] by cases of the boundary's answer. *)
Lemma mutate_by_cases ns mutations w :
  fst (mutate boundary double_to_uint64 json_parse mutations (ns, w))
  = (let r := answer boundary (op_mutate ns mutations) w in
     match out_err r, out_result r with
     | Some msg, _ => Thrown (BoundaryError (c_str msg))
     | None, None => Thrown EmptyResultError_mutate
     | None, Some payload =>
         match decode double_to_uint64 json_parse (c_str payload) with
         | inl e => Thrown (DecodeError e)
         | inr resultMap => Returned resultMap
         end
     end).
Proof.
  unfold answer, mutate; simpl; run.
  destruct (boundary _ _) as [g r]; run.
  destruct (out_result r) as [payload|], (out_err r) as [msg|]; run;
    try reflexivity.
  destruct (decode _ _ (c_str payload)); run; reflexivity.
Qed.

(** The outcome of [query] by cases of the boundary's answer. *)
Lemma query_by_cases ns queryStr w :
  fst (query boundary queryStr (ns, w))
  = (let r := answer boundary (op_query ns queryStr) w in
     match out_err r, out_result r with
     | Some msg, _ => Thrown (BoundaryError (c_str msg))
     | None, None => Thrown EmptyResultError_query
     | None, Some payload => Returned (c_str payload)
     end).
Proof.
  unfold answer, query; simpl; run.
  destruct (boundary _ _) as [g r]; run.
  destruct (out_result r) as [payload|], (out_err r) as [msg|]; run;
    reflexivity.
Qed.

(** C6. When no error is reported and a result is stored, [query]
    returns the C string behind [result] undecoded, character for
    character up to the buffer's first NUL: for a buffer without an
    inner NUL, the stored response itself.  It throws the empty-result
    failure when neither error nor result is stored, and the engine's
    message when an error is reported. *)
Theorem query_outcomes ns queryStr w :
  fst (query boundary queryStr (ns, w))
  = (let r := answer boundary (op_query ns queryStr) w in
     match out_err r, out_result r with
     | Some msg, _ => Thrown (BoundaryError (c_str msg))
     | None, None => Thrown EmptyResultError_query
     | None, Some payload => Returned (c_str payload)
     end)
  /\ (forall payload,
        out_err (answer boundary (op_query ns queryStr) w) = None ->
        out_result (answer boundary (op_query ns queryStr) w)
        = Some payload ->
        nul_free payload = true ->
        fst (query boundary queryStr (ns, w)) = Returned payload).
Proof.
  split; [apply query_by_cases|].
  intros payload Herr Hres Hfree.
  rewrite query_by_cases. simpl. rewrite Herr, Hres.
  now rewrite c_str_verbatim.
Qed.

(** ** Decoding the mutation result *)

Lemma get_arithmetic_value_number v :
  is_number v = true ->
  exists n, get_arithmetic_value double_to_uint64 v = inr n.
Proof. destruct v; simpl; try discriminate; eauto. Qed.

Lemma get_arithmetic_value_other v :
  is_number v = false ->
  get_arithmetic_value double_to_uint64 v
  = inl (type_error_302 ("type must be number, but is " +:+ type_name v)).
Proof. destruct v; simpl; try discriminate; reflexivity. Qed.

(** The conversion loop over distinct keys absent from the accumulator:
    every element is inserted with its converted value and nothing else
    changes. *)
Lemma transform_numbers elems : forall acc : gmap string Z,
  NoDup (elems.*1) ->
  (forall k, k ∈ elems.*1 -> acc !! k = None) ->
  forallb (fun kv => is_number (snd kv)) elems = true ->
  exists m,
    transform double_to_uint64 elems acc = inr m
    /\ dom m = dom acc ∪ list_to_set (elems.*1)
    /\ (forall k v, (k, v) ∈ elems ->
          exists n, get_arithmetic_value double_to_uint64 v = inr n
                    /\ m !! k = Some n)
    /\ (forall k, k ∉ elems.*1 -> m !! k = acc !! k).
Proof.
  induction elems as [|[k v] rest IH]; intros acc Hnodup Hfresh Hnum.
  - exists acc. simpl. repeat split; try set_solver.
  - simpl in *. apply andb_true_iff in Hnum as [Hv Hrest].
    apply NoDup_cons in Hnodup as [Hk Hnodup].
    destruct (get_arithmetic_value_number v Hv) as [n Hn]. rewrite Hn.
    unfold map_insert. rewrite (Hfresh k) by set_solver.
    destruct (IH (<[k := n]> acc) Hnodup) as (m & Hm & Hdom & Hin & Hout);
      [|assumption|].
    { intros k' Hk'. destruct (decide (k = k')) as [->|Hne]; [contradiction|].
      rewrite lookup_insert_ne by assumption. apply Hfresh. set_solver. }
    exists m. split; [assumption|]. split; [|split].
    + rewrite Hdom, dom_insert_L. set_solver.
    + intros k' v' Hkv. apply elem_of_cons in Hkv as [Heq | Hin'].
      * inversion Heq; subst k' v'. exists n. split; [assumption|].
        rewrite (Hout k Hk). apply lookup_insert_eq.
      * now apply Hin.
    + intros k' [Hne Hk']%not_elem_of_cons.
      rewrite (Hout k' Hk'). now apply lookup_insert_ne.
Qed.

(** The conversion loop stops at the first element that is no number. *)
Lemma transform_not_number elems : forall acc : gmap string Z,
  forallb (fun kv => is_number (snd kv)) elems = false ->
  exists v, v ∈ elems.*2 /\ is_number v = false
    /\ transform double_to_uint64 elems acc
       = inl (type_error_302 ("type must be number, but is " +:+ type_name v)).
Proof.
  induction elems as [|[k v] rest IH]; intros acc Hnum; [discriminate|].
  simpl in *. destruct (is_number v) eqn:Hv; simpl in Hnum.
  - destruct (get_arithmetic_value_number v Hv) as [n ->].
    destruct (IH (map_insert k n acc) Hnum) as (v' & Hin & Hv' & Heq).
    exists v'. repeat split; [set_solver|assumption|assumption].
  - exists v. rewrite (get_arithmetic_value_other v Hv).
    repeat split; [set_solver|assumption].
Qed.



(** C5 (as the code has it). When the payload parses to an object with
    distinct keys: if every value is a JSON number, [mutate] returns a
    mapping with exactly the keys of the object, an unsigned value kept
    as it is, a signed value reduced modulo 2^64 and a floating-point
    value cast, none of them rejected; if some value is not a number,
    [mutate] throws the decode failure. *)
Theorem mutate_decodes_every_key ns mutations w payload elems :
  let r := answer boundary (op_mutate ns mutations) w in
  let outcome :=
    fst (mutate boundary double_to_uint64 json_parse mutations (ns, w)) in
  out_err r = None ->
  out_result r = Some payload ->
  json_parse (c_str payload) = inr (j_object elems) ->
  NoDup (elems.*1) ->
  (forallb (fun kv => is_number (snd kv)) elems = true ->
   exists m : gmap string Z,
     outcome = Returned m
     /\ dom m = list_to_set (elems.*1)
     /\ (forall k n, (k, j_number_unsigned n) ∈ elems -> m !! k = Some n)
     /\ (forall k n, (k, j_number_integer n) ∈ elems ->
           m !! k = Some (n mod 2 ^ 64))
     /\ (forall k d, (k, j_number_float d) ∈ elems ->
           m !! k = Some (double_to_uint64 d)))
  /\ (forallb (fun kv => is_number (snd kv)) elems = false ->
      exists e, outcome = Thrown (DecodeError e)).
Proof.
  intros r outcome Herr Hres Hparse Hnodup.
  pose proof (mutate_by_cases ns mutations w) as Hout.
  fold r in Hout. simpl in Hout. rewrite Herr, Hres in Hout.
  unfold decode in Hout. rewrite Hparse in Hout. simpl in Hout.
  fold outcome in Hout. split; intros Hnum.
  - destruct (transform_numbers elems ∅ Hnodup) as (m & Hm & Hdom & Hin & _);
      [intros; apply lookup_empty | assumption |].
    rewrite Hm in Hout. exists m. split; [assumption|].
    split; [rewrite Hdom, dom_empty_L; set_solver|].
    repeat split; intros k x Hk;
      destruct (Hin _ _ Hk) as (n & [= <-] & ->); reflexivity.
  - destruct (transform_not_number elems ∅ Hnum) as (v & _ & _ & Heq).
    rewrite Heq in Hout. eauto.
Qed.

(** ** Boundary-allocated buffers *)

Lemma succ_neq (b : N) : N.succ b <> b.
Proof. lia. Qed.

(** X2. Unless a result string comes together with an error message, an
    operation frees exactly the buffers it was handed, each once and
    after reading it, and none of them stays allocated. *)
Lemma buffers_released_once op w :
  result_slot op (answer boundary op w) = None
  \/ out_err (answer boundary op w) = None ->
  exists o w',
    perform boundary double_to_uint64 json_parse op w = (o, w')
    /\ o <> Undefined
    /\ frees_of (trace w')
       = frees_of (trace w) ++ handed_out op (answer boundary op w) (brk w)
    /\ (forall p, p ∈ handed_out op (answer boundary op w) (brk w) ->
          heap w' !! p = None).
Proof.
  unfold answer, handed_out.
  destruct op; simpl;
    unfold Engine_ctor, createNamespace, getNamespace, dropAll, load,
      loadData, dropData, alterSchema, mutate, query; run;
    destruct (boundary _ _) as [g r]; run;
    intros Hclash;
    try match goal with
        | |- context [out_result ?x] => destruct (out_result x) as [payload|]
        end;
    destruct (out_err r) as [msg|]; run;
    try (destruct Hclash; discriminate);
    try (destruct (ret_val r =? 0); run);
    try (destruct (decode _ _ (c_str payload)); run);
    eexists _, _; (split; [reflexivity|]); simpl;
    rewrite ?frees_of_app; simpl; rewrite ?app_nil_r;
    (split; [discriminate|]); (split; [reflexivity|]);
    intros p Hp;
    first [ apply list_elem_of_singleton in Hp as ->; apply lookup_delete_eq
          | now apply elem_of_nil in Hp ].
Qed.

(** C7 (where the code departs from it). When [MutateC] or [QueryC]
    stores both a result string and an error message, [checkError] frees
    the message and throws; the result buffer is never freed and stays
    allocated. *)
Theorem reported_error_leaks_result op w payload msg :
  result_slot op (answer boundary op w) = Some payload ->
  out_err (answer boundary op w) = Some msg ->
  exists w',
    perform boundary double_to_uint64 json_parse op w
    = (Thrown (BoundaryError (c_str msg)), w')
    /\ trace w'
       = trace w ++ [Ecall (boundary_call op); Efree (N.succ (brk w))]
    /\ heap w' !! brk w = Some payload.
Proof.
  unfold answer.
  destruct op; simpl; try discriminate;
    unfold mutate, query; run;
    destruct (boundary _ _) as [g r]; run;
    intros -> ->; run;
    eexists; (split; [reflexivity|]); simpl;
    (split; [now rewrite <- app_assoc|]);
    rewrite lookup_delete_ne by apply succ_neq;
    rewrite lookup_insert_ne by apply succ_neq;
    apply lookup_insert_eq.
Qed.

(** ** Overlapping calls of [close()] *)

(** A thread that runs [close()] alone does what [close] does. *)
Lemma thread_alone_is_close e (w : world) :
  let s := run_schedule [0; 0; 0]%nat (entering e 1) in
  exists w',
    close boundary (e, w) = (Returned tt, (s_engine s, w'))
    /\ calls_of (trace w') = calls_of (trace w) ++ s_calls s.
Proof.
  destruct (Z.eq_dec (engine_handle e) 0) as [Hz | Hlive].
  - destruct e as [h]; simpl in Hz; subst h.
    exists w. split; [reflexivity|]. simpl. now rewrite app_nil_r.
  - rewrite close_live by assumption.
    unfold run_schedule, entering, thread_step, set_pc; simpl.
    rewrite (proj2 (Z.eqb_neq _ _) Hlive); simpl.
    eexists; split; [reflexivity|]. simpl. now rewrite calls_of_app.
Qed.

(** ** Further properties of the operations *)

Ltac unfold_operations :=
  unfold Engine_ctor, createNamespace, getNamespace, dropAll, load,
    loadData, dropData, alterSchema, mutate, query.

(** X1. No operation reads or frees a buffer that is not allocated,
    whatever the boundary answers: the outcome is never undefined, what
    the operation frees are distinct buffers handed out during this very
    call, and the buffers that existed before the call are left as they
    were. *)
Theorem operations_are_memory_safe op w :
  exists o w' freed,
    perform boundary double_to_uint64 json_parse op w = (o, w')
    /\ o <> Undefined
    /\ frees_of (trace w') = frees_of (trace w) ++ freed
    /\ NoDup freed
    /\ (forall p, p ∈ freed ->
          (brk w <= p < brk w')%N /\ heap w' !! p = None)
    /\ (forall p, (p < brk w)%N -> heap w' !! p = heap w !! p).
Proof.
  destruct op; simpl; unfold_operations; run;
    destruct (boundary _ _) as [g r]; run;
    try match goal with
        | |- context [out_result ?x] => destruct (out_result x) as [payload|]
        end;
    destruct (out_err r) as [msg|]; run;
    try (destruct (ret_val r =? 0); run);
    try (destruct (decode _ _ (c_str payload)); run);
    eexists _, _, _; (split; [reflexivity|]); simpl;
    rewrite ?frees_of_app, <- ?app_assoc; simpl;
    (split; [discriminate|]); (split; [reflexivity|]);
    (split; [first [apply NoDup_nil_2 | apply NoDup_singleton]|]);
    (split;
     [ intros p Hp;
       first [ apply list_elem_of_singleton in Hp as ->;
               split; [lia|];
               rewrite ?lookup_delete_eq;
               rewrite ?lookup_delete_ne by lia;
               rewrite ?lookup_delete_eq; reflexivity
             | now apply elem_of_nil in Hp ]
     | intros p Hp;
       rewrite ?lookup_delete_ne by lia;
       rewrite ?lookup_insert_ne by lia;
       rewrite ?lookup_delete_ne by lia;
       rewrite ?lookup_insert_ne by lia;
       reflexivity ]).
Qed.

(** X3. Every operation crosses the boundary exactly once, with the call
    of its own boundary function: nothing is retried, and a failing
    operation makes no further call (a constructor that throws does not
    call [CloseC]). *)
Theorem every_operation_calls_boundary_once op w :
  calls_of (trace (snd (perform boundary double_to_uint64 json_parse op w)))
  = calls_of (trace w) ++ [boundary_call op].
Proof.
  destruct op; simpl; unfold_operations; run;
    destruct (boundary _ _) as [g r]; run;
    try match goal with
        | |- context [out_result ?x] => destruct (out_result x) as [payload|]
        end;
    destruct (out_err r) as [msg|]; run;
    try (destruct (ret_val r =? 0); run);
    try (destruct (decode _ _ (c_str payload)); run);
    rewrite ?calls_of_app; simpl; now rewrite ?app_nil_r.
Qed.

(** X4. The methods of [Namespace] never change [namespace_handle] and
    each makes a single boundary call that carries it; [getId] cannot
    throw, returns what [GetNamespaceIDC] returns and touches no
    buffer. *)
Theorem namespace_operations_forward_handle :
  forwards_namespace_handle (getId boundary)
    (fun ns => GetNamespaceIDC (namespace_handle ns))
  /\ forwards_namespace_handle (dropData boundary)
       (fun ns => DropDataC (namespace_handle ns))
  /\ (forall schema, forwards_namespace_handle (alterSchema boundary schema)
        (fun ns => AlterSchemaC (namespace_handle ns) (c_str schema)))
  /\ (forall mutations,
        forwards_namespace_handle
          (mutate boundary double_to_uint64 json_parse mutations)
          (fun ns => MutateC (namespace_handle ns) (c_str mutations)))
  /\ (forall queryStr, forwards_namespace_handle (query boundary queryStr)
        (fun ns => QueryC (namespace_handle ns) (c_str queryStr)))
  /\ (forall ns w,
        exists w',
          getId boundary (ns, w)
          = (Returned
               (ret_val (snd (boundary (GetNamespaceIDC (namespace_handle ns))
                                (engine_side w)))),
             (ns, w'))
          /\ heap w' = heap w /\ frees_of (trace w') = frees_of (trace w)).
Proof.
  repeat split; intros; try intros ns w;
    unfold getId, dropData, alterSchema, mutate, query; run;
    destruct (boundary _ _) as [g r]; run;
    try match goal with
        | |- context [out_result ?x] => destruct (out_result x) as [payload|]
        end;
    try (destruct (out_err r) as [msg|]; run);
    try (destruct (decode _ _ (c_str payload)); run);
    repeat eexists; simpl;
    rewrite ?calls_of_app, ?frees_of_app; simpl; now rewrite ?app_nil_r.
Qed.

(** X5. The constructor has three outcomes: the engine's message when an
    error is reported, whatever handle came with it; "Failed to create
    engine" when no error is reported and the handle is 0; otherwise an
    [Engine] holding exactly the handle that [NewEngineC] returned. *)
Theorem Engine_ctor_outcomes dataDir w :
  fst (Engine_ctor boundary dataDir w)
  = (let r := answer boundary (op_open dataDir) w in
     match out_err r with
     | Some msg => Thrown (BoundaryError (c_str msg))
     | None =>
         if ret_val r =? 0
         then Thrown HandleCreationFailed
         else Returned {| engine_handle := ret_val r |}
     end).
Proof.
  unfold answer, Engine_ctor; simpl; run.
  destruct (boundary _ _) as [g r]; run.
  destruct (out_err r) as [msg|]; run; [reflexivity|].
  destruct (ret_val r =? 0); reflexivity.
Qed.

(** X6. [createNamespace] and [getNamespace] succeed exactly when no
    error is reported, and the [Namespace] they return holds exactly the
    value the boundary function returned. *)
Theorem namespace_handle_is_returned_value op e nsID w ns :
  op = op_createNamespace e \/ op = op_getNamespace e nsID ->
  fst (perform boundary double_to_uint64 json_parse op w)
  = Returned (v_namespace ns)
  <-> out_err (answer boundary op w) = None
      /\ namespace_handle ns = ret_val (answer boundary op w).
Proof.
  intros [-> | ->]; unfold answer; simpl;
    unfold createNamespace, getNamespace; run;
    destruct (boundary _ _) as [g r]; run;
    destruct (out_err r) as [msg|]; run;
    (split; [intros Heq | intros [Herr Hns]]);
    try discriminate;
    [ inversion Heq; now split
    | destruct ns as [h]; simpl in Hns; now subst h
    | inversion Heq; now split
    | destruct ns as [h]; simpl in Hns; now subst h ].
Qed.

(** X7. [dropAll], [load], [loadData], [dropData] and [alterSchema]
    return normally exactly when the boundary reports no error. *)
Theorem void_operations_succeed_iff_no_error op w :
  returns_void op = true ->
  fst (perform boundary double_to_uint64 json_parse op w) = Returned v_void
  <-> out_err (answer boundary op w) = None.
Proof.
  unfold answer.
  destruct op; simpl; try discriminate; intros _;
    unfold dropAll, load, loadData, dropData, alterSchema; run;
    destruct (boundary _ _) as [g r]; run;
    destruct (out_err r) as [msg|]; run;
    split; intros Heq; try discriminate; reflexivity.
Qed.

(** X8. What [mutate] throws or returns at the edges of decoding, when
    no error is reported and a payload is present: a text the parser
    rejects gives the parser's message behind the prefix; a JSON value
    that is no object gives the library's type error naming the value's
    type; the empty object gives the empty mapping. *)
Theorem mutate_decode_edges ns mutations w payload :
  out_err (answer boundary (op_mutate ns mutations) w) = None ->
  out_result (answer boundary (op_mutate ns mutations) w) = Some payload ->
  let outcome :=
    fst (mutate boundary double_to_uint64 json_parse mutations (ns, w)) in
  (forall e, json_parse (c_str payload) = inl e ->
     outcome
     = Thrown (runtime_error
                 ("Failed to parse mutation result: " +:+ json_what e)))
  /\ (forall j, json_parse (c_str payload) = inr j ->
        (forall elems, j <> j_object elems) ->
        outcome
        = Thrown (DecodeError
                    (type_error_302
                       ("type must be object, but is " +:+ type_name j))))
  /\ (json_parse (c_str payload) = inr (j_object []) ->
      outcome = Returned ∅).
Proof.
  intros Herr Hres outcome.
  pose proof (mutate_by_cases ns mutations w) as Hout.
  simpl in Hout. rewrite Herr, Hres in Hout. fold outcome in Hout.
  unfold decode in Hout.
  repeat split.
  - intros e He. now rewrite He in Hout.
  - intros j Hj Hobj. rewrite Hj in Hout.
    destruct j; simpl in Hout; try assumption.
    now destruct (Hobj elems).
  - intros Hj. now rewrite Hj in Hout.
Qed.



(** ** A caller's session on one engine *)

Lemma close_or_operation (m : engine_method) : m = m_close \/ m <> m_close.
Proof. destruct m; (now left) || (right; discriminate). Qed.

(** Every method but [close] leaves the object as it is, does not
    release, and carries the handle it found. *)
Lemma attempt_operation m e w :
  m <> m_close ->
  exists w' c,
    attempt boundary m (e, w) = (Returned tt, (e, w'))
    /\ calls_of (trace w') = calls_of (trace w) ++ [c]
    /\ is_CloseC c = false
    /\ engine_arg c = Some (engine_handle e).
Proof.
  intros Hm. unfold attempt.
  destruct m; try contradiction; simpl;
    unfold createNamespace, getNamespace, dropAll, load, loadData; run;
    destruct (boundary _ _) as [g r]; run;
    destruct (out_err r) as [msg|]; run;
    eexists _, _; (split; [reflexivity|]); simpl;
    rewrite ?calls_of_app; simpl; rewrite ?app_nil_r;
    repeat split; reflexivity.
Qed.

Lemma attempt_close_live e w :
  engine_handle e <> 0 ->
  attempt boundary m_close (e, w)
  = (Returned tt,
     ({| engine_handle := 0 |}, after_CloseC boundary (engine_handle e) w)).
Proof. intros Hlive. unfold attempt; simpl. now rewrite close_live. Qed.

(** On a closed engine a session still returns; its calls carry the
    sentinel and none of them releases. *)
Lemma session_closed ms : forall w,
  exists w' after,
    session boundary ms ({| engine_handle := 0 |}, w)
    = (Returned tt, ({| engine_handle := 0 |}, w'))
    /\ calls_of (trace w') = calls_of (trace w) ++ after
    /\ Forall (fun c => is_CloseC c = false /\ engine_arg c = Some 0) after.
Proof.
  induction ms as [|m rest IH]; intros w.
  - exists w, []. simpl. rewrite app_nil_r. repeat split. constructor.
  - simpl. unfold bind.
    destruct (close_or_operation m) as [-> | Hm].
    + unfold attempt; simpl. apply IH.
    + destruct (attempt_operation m {| engine_handle := 0 |} w Hm)
        as (w1 & c & -> & Hc & Hrel & Harg).
      destruct (IH w1) as (w2 & after & -> & Hcalls & Hafter).
      exists w2, (c :: after). split; [reflexivity|]. split.
      * rewrite Hcalls, Hc, <- app_assoc. reflexivity.
      * constructor; [now split | assumption].
Qed.

(** On a live engine a session either never closes, and all its calls
    carry the live handle, or closes once, and the calls after that
    carry the sentinel. *)
Lemma session_live ms : forall e w,
  engine_handle e <> 0 ->
  exists w' before,
    Forall (fun c => is_CloseC c = false
                     /\ engine_arg c = Some (engine_handle e)) before
    /\ ((session boundary ms (e, w) = (Returned tt, (e, w'))
         /\ calls_of (trace w') = calls_of (trace w) ++ before)
        \/ (exists after,
              session boundary ms (e, w)
              = (Returned tt, ({| engine_handle := 0 |}, w'))
              /\ calls_of (trace w')
                 = calls_of (trace w)
                   ++ before ++ CloseC (engine_handle e) :: after
              /\ Forall (fun c => is_CloseC c = false
                                  /\ engine_arg c = Some 0) after)).
Proof.
  induction ms as [|m rest IH]; intros e w Hlive.
  - exists w, []. split; [constructor|]. left. simpl.
    now rewrite app_nil_r.
  - simpl. unfold bind.
    destruct (close_or_operation m) as [-> | Hm].
    + rewrite attempt_close_live by assumption.
      destruct (session_closed rest
                  (after_CloseC boundary (engine_handle e) w))
        as (w' & after & -> & Hcalls & Hafter).
      exists w', []. split; [constructor|]. right. exists after.
      split; [reflexivity|]. split; [|assumption].
      rewrite Hcalls. simpl. rewrite calls_of_app. simpl.
      now rewrite <- app_assoc.
    + destruct (attempt_operation m e w Hm)
        as (w1 & c & -> & Hc & Hrel & Harg).
      destruct (IH e w1 Hlive)
        as (w' & before & Hbefore & [[-> Hcalls] | (after & -> & Hcalls & Hafter)]).
      * exists w', (c :: before). split; [constructor; [now split|assumption]|].
        left. split; [reflexivity|].
        rewrite Hcalls, Hc, <- app_assoc. reflexivity.
      * exists w', (c :: before). split; [constructor; [now split|assumption]|].
        right. exists after. split; [reflexivity|]. split; [|assumption].
        rewrite Hcalls, Hc, <- app_assoc. reflexivity.
Qed.

(** X9. Whatever methods a caller invokes on a live [Engine], in
    whatever order and whether they throw or not, once the object is
    destroyed the engine has been released exactly once, with its own
    handle: every call before the release carries that handle, every
    call after it carries the sentinel, and no other call is a
    [CloseC]. *)
Theorem engine_lifetime_releases_once e ms w :
  engine_handle e <> 0 ->
  exists w' before after,
    (session boundary ms ;;; Engine_dtor boundary) (e, w)
    = (Returned tt, ({| engine_handle := 0 |}, w'))
    /\ calls_of (trace w')
       = calls_of (trace w) ++ before ++ CloseC (engine_handle e) :: after
    /\ Forall (fun c => is_CloseC c = false
                        /\ engine_arg c = Some (engine_handle e)) before
    /\ Forall (fun c => is_CloseC c = false /\ engine_arg c = Some 0) after
    /\ close_calls w' = S (close_calls w).
Proof.
  intros Hlive.
  assert (Hcount : forall (w w' : @world G) before after h,
    calls_of (trace w') = calls_of (trace w) ++ before ++ CloseC h :: after ->
    Forall (fun c => is_CloseC c = false /\ engine_arg c = Some h) before ->
    Forall (fun c => is_CloseC c = false /\ engine_arg c = Some 0) after ->
    close_calls w' = S (close_calls w)).
  { intros w0 w0' before after h Hcalls Hbefore Hafter.
    unfold close_calls. rewrite Hcalls, !List.filter_app, !length_app. simpl.
    assert (Hnone : forall k (l : list call),
      Forall (fun c => is_CloseC c = false /\ engine_arg c = Some k) l ->
      List.filter is_CloseC l = []).
    { intros k l Hl. induction Hl as [|c l [Hc _] _ IHl]; [reflexivity|].
      simpl. now rewrite Hc. }
    rewrite (Hnone _ _ Hbefore), (Hnone _ _ Hafter). simpl. lia. }
  unfold bind.
  destruct (session_live ms e w Hlive)
    as (w1 & before & Hbefore & [[-> Hcalls] | (after & -> & Hcalls & Hafter)]).
  - rewrite Engine_dtor_live by assumption.
    exists (after_CloseC boundary (engine_handle e) w1), before, [].
    assert (Hall : calls_of (trace (after_CloseC boundary (engine_handle e) w1))
                   = calls_of (trace w)
                     ++ before ++ [CloseC (engine_handle e)]).
    { simpl. rewrite calls_of_app, Hcalls, <- app_assoc. reflexivity. }
    split; [reflexivity|]. split; [assumption|].
    split; [assumption|]. split; [constructor|].
    eapply Hcount; eauto.
  - rewrite Engine_dtor_closed.
    exists w1, before, after.
    split; [reflexivity|]. split; [assumption|].
    split; [assumption|]. split; [assumption|].
    eapply Hcount; eauto.
Qed.

End WrapperFacts.

Lemma run_schedule_app sched1 sched2 s :
  run_schedule (sched1 ++ sched2) s
  = run_schedule sched2 (run_schedule sched1 s).
Proof. unfold run_schedule. apply fold_left_app. Qed.

Lemma one_at_a_time_cons i rest :
  one_at_a_time (i :: rest) = [i; i; i] ++ one_at_a_time rest.
Proof. reflexivity. Qed.

Lemma run_close_thread i s :
  run_schedule [i; i; i] s = thread_step i (thread_step i (thread_step i s)).
Proof. reflexivity. Qed.

Lemma lookup_set_pc i l s :
  (i < length (s_pcs s))%nat -> s_pcs (set_pc i l s) !! i = Some l.
Proof. intros Hlt. unfold set_pc; simpl. now apply list_lookup_insert_eq. Qed.

Lemma length_set_pc i l s : length (s_pcs (set_pc i l s)) = length (s_pcs s).
Proof. unfold set_pc; simpl. apply length_insert. Qed.

Lemma step_finished i s :
  s_pcs s !! i = Some finished -> thread_step i s = s.
Proof. intros Hi. unfold thread_step. now rewrite Hi. Qed.

Lemma step_absent i s : s_pcs s !! i = None -> thread_step i s = s.
Proof. intros Hi. unfold thread_step. now rewrite Hi. Qed.

Lemma step_check i s :
  s_pcs s !! i = Some at_check ->
  thread_step i s
  = set_pc i (if engine_handle (s_engine s) =? 0 then finished else at_call) s.
Proof.
  intros Hi. unfold thread_step. rewrite Hi.
  now destruct (engine_handle (s_engine s) =? 0).
Qed.

Lemma step_call i s :
  s_pcs s !! i = Some at_call ->
  thread_step i s
  = set_pc i at_store
      {| s_engine := s_engine s; s_pcs := s_pcs s;
         s_calls := s_calls s ++ [CloseC (engine_handle (s_engine s))] |}.
Proof. intros Hi. unfold thread_step. now rewrite Hi. Qed.

Lemma step_store i s :
  s_pcs s !! i = Some at_store ->
  thread_step i s
  = set_pc i finished
      {| s_engine := {| engine_handle := 0 |}; s_pcs := s_pcs s;
         s_calls := s_calls s |}.
Proof. intros Hi. unfold thread_step. now rewrite Hi. Qed.

(** Once the handle is the sentinel and nobody is mid-close, a thread
    running [close()] to completion calls nothing. *)
Lemma close_when_quiet i s :
  quiet s ->
  quiet (run_schedule [i; i; i] s)
  /\ s_calls (run_schedule [i; i; i] s) = s_calls s.
Proof.
  intros [Hz Hpcs]. rewrite run_close_thread.
  destruct (s_pcs s !! i) as [l|] eqn:Hi.
  - assert (Hlt : (i < length (s_pcs s))%nat) by (eapply lookup_lt_Some; eauto).
    assert (Hl : l = at_check \/ l = finished)
      by (eapply (proj1 (Forall_lookup _ _) Hpcs); eauto).
    destruct Hl as [-> | ->].
    + rewrite (step_check i s Hi), Hz. simpl.
      rewrite !(step_finished i (set_pc i finished s))
        by now apply lookup_set_pc.
      split; [|reflexivity]. split; [assumption|].
      simpl. apply Forall_insert; [assumption | now right].
    + rewrite !(step_finished i s) by assumption. now split.
  - rewrite !(step_absent i s) by assumption. now split.
Qed.

Lemma closes_when_quiet order : forall s,
  quiet s ->
  quiet (run_schedule (one_at_a_time order) s)
  /\ s_calls (run_schedule (one_at_a_time order) s) = s_calls s.
Proof.
  induction order as [|i rest IH]; intros s Hq; [now split|].
  rewrite one_at_a_time_cons, run_schedule_app.
  destruct (close_when_quiet i s Hq) as [Hq' Hcalls].
  destruct (IH _ Hq') as [Hq'' Hcalls'].
  split; [assumption | congruence].
Qed.

(** The first thread to run [close()] on a live engine, alone. *)
Lemma first_close e n i :
  engine_handle e <> 0 ->
  (i < n)%nat ->
  quiet (run_schedule [i; i; i] (entering e n))
  /\ s_calls (run_schedule [i; i; i] (entering e n))
     = [CloseC (engine_handle e)].
Proof.
  intros Hlive Hi. rewrite run_close_thread.
  assert (Hlen : (i < length (s_pcs (entering e n)))%nat)
    by (simpl; now rewrite length_replicate).
  rewrite (step_check i (entering e n))
    by (simpl; now apply lookup_replicate_2).
  simpl. rewrite (proj2 (Z.eqb_neq _ _) Hlive).
  rewrite (step_call i (set_pc i at_call (entering e n)))
    by now apply lookup_set_pc.
  rewrite (step_store i (set_pc i at_store _))
    by (apply lookup_set_pc; simpl; now rewrite length_insert).
  unfold set_pc; simpl. repeat split.
  rewrite !list_insert_insert_eq.
  apply Forall_insert; [|now right].
  apply Forall_replicate. now left.
Qed.

(** C8 (as the code has it). [close()] tests and clears
    [engine_handle] in separate steps.  When the calls of [close()] on
    one live [Engine] run one after the other, whatever their number
    and order, exactly one of them calls [CloseC] and the handle ends
    as the sentinel. *)
Theorem serial_closes_release_once e n order :
  engine_handle e <> 0 ->
  order <> [] ->
  Forall (fun i => (i < n)%nat) order ->
  let s := run_schedule (one_at_a_time order) (entering e n) in
  s_calls s = [CloseC (engine_handle e)]
  /\ s_engine s = {| engine_handle := 0 |}.
Proof.
  intros Hlive Hne Hids. destruct order as [|i rest]; [contradiction|].
  apply Forall_cons in Hids as [Hi _].
  rewrite one_at_a_time_cons, run_schedule_app.
  destruct (first_close e n i Hlive Hi) as [Hq Hcalls].
  destruct (closes_when_quiet rest _ Hq) as [[Hz _] Hcalls'].
  split; [congruence|].
  destruct (s_engine _) as [h]; simpl in Hz. now subst h.
Qed.

(** ** Any schedule of overlapping closes *)

Lemma count_past_check_insert pcs : forall i l l',
  pcs !! i = Some l ->
  (count_past_check (<[i := l']> pcs) + past_check l
   = count_past_check pcs + past_check l')%nat.
Proof.
  induction pcs as [|a pcs IH]; intros [|i] l l' Hi; try discriminate.
  - injection Hi as ->. simpl. lia.
  - simpl in *. specialize (IH i l l' Hi). lia.
Qed.

Lemma past_check_le_count pcs i l :
  pcs !! i = Some l -> (past_check l <= count_past_check pcs)%nat.
Proof.
  intros Hi. pose proof (count_past_check_insert pcs i l at_check Hi).
  simpl in *. lia.
Qed.

Lemma count_past_check_le_length pcs :
  (count_past_check pcs <= length pcs)%nat.
Proof. induction pcs as [|[] pcs IH]; simpl; lia. Qed.

Lemma count_past_check_replicate n :
  count_past_check (replicate n at_check) = 0%nat.
Proof. induction n as [|n IH]; [reflexivity | exact IH]. Qed.

Lemma thread_step_length i s :
  length (s_pcs (thread_step i s)) = length (s_pcs s).
Proof.
  unfold thread_step.
  destruct (s_pcs s !! i) as [[]|]; try reflexivity;
    try destruct (negb _); simpl; apply length_insert.
Qed.

Lemma run_schedule_length schedule : forall s,
  length (s_pcs (run_schedule schedule s)) = length (s_pcs s).
Proof.
  induction schedule as [|i rest IH]; intros s; [reflexivity|].
  simpl. change (fold_left _ rest (thread_step i s))
    with (run_schedule rest (thread_step i s)).
  now rewrite IH, thread_step_length.
Qed.

(** One step of one thread keeps the state within [reachable_from]. *)
Lemma thread_step_reachable h i s :
  h <> 0 -> reachable_from h s -> reachable_from h (thread_step i s).
Proof.
  intros Hh Hs.
  destruct (s_pcs s !! i) as [l|] eqn:Hi;
    [|now rewrite step_absent by assumption].
  destruct l; [| | |now rewrite step_finished by assumption];
    destruct Hs as (Hhandle & Hargs & Hlen & Hnone & Hhead).
  - (* the test *)
    rewrite step_check by assumption.
    destruct (engine_handle (s_engine s) =? 0) eqn:Hz.
    + apply Z.eqb_eq in Hz.
      pose proof (count_past_check_insert _ _ _ finished Hi) as Hcount.
      simpl in Hcount.
      unfold reachable_from, set_pc; simpl.
      split; [assumption|]. split; [assumption|]. split; [lia|].
      split; [|assumption].
      intros Hempty. destruct (Hnone Hempty) as [Hlive _]. congruence.
    + pose proof (count_past_check_insert _ _ _ at_call Hi) as Hcount.
      simpl in Hcount.
      unfold reachable_from, set_pc; simpl.
      split; [assumption|]. split; [assumption|]. split; [lia|].
      split; [|assumption].
      intros Hempty. destruct (Hnone Hempty) as [Hlive Hzero].
      split; [assumption | lia].
  - (* the call *)
    rewrite step_call by assumption.
    pose proof (count_past_check_insert _ _ _ at_store Hi) as Hcount.
    simpl in Hcount.
    unfold reachable_from, set_pc; simpl.
    split; [assumption|]. split; [|split; [|split]].
    + apply Forall_app. split; [assumption|].
      constructor; [|constructor].
      destruct Hhandle as [-> | ->]; [now left | now right].
    + rewrite length_app. simpl. lia.
    + intros Hempty. now apply app_eq_nil in Hempty as [_ ?].
    + intros _. destruct (s_calls s) as [|c rest] eqn:Hcalls.
      * destruct (Hnone eq_refl) as [-> _]. now exists [].
      * destruct Hhead as [rest' Hrest]; [discriminate|].
        injection Hrest as -> ->.
        now exists (rest' ++ [CloseC (engine_handle (s_engine s))]).
  - (* the store *)
    rewrite step_store by assumption.
    pose proof (count_past_check_insert _ _ _ finished Hi) as Hcount.
    pose proof (past_check_le_count _ _ _ Hi) as Hpast.
    simpl in Hcount, Hpast.
    unfold reachable_from, set_pc; simpl.
    split; [now right|]. split; [assumption|]. split; [lia|].
    split; [|assumption].
    intros Hempty. destruct (Hnone Hempty) as [_ Hzero]. lia.
Qed.

Lemma run_schedule_reachable h schedule : forall s,
  h <> 0 -> reachable_from h s -> reachable_from h (run_schedule schedule s).
Proof.
  induction schedule as [|i rest IH]; intros s Hh Hs; [assumption|].
  simpl. change (fold_left _ rest (thread_step i s))
    with (run_schedule rest (thread_step i s)).
  apply IH; [assumption|]. now apply thread_step_reachable.
Qed.

Lemma entering_reachable e n : reachable_from (engine_handle e) (entering e n).
Proof.
  unfold reachable_from, entering; simpl.
  rewrite count_past_check_replicate.
  repeat split; try (now left); try constructor; try lia.
  intros Hne. now destruct Hne.
Qed.

(** X10. However the steps of [n] threads calling [close()] on one live
    [Engine] interleave: [CloseC] is called at most once per thread;
    every such call carries the engine's handle or the sentinel 0; and
    as soon as one thread has left [close()], the engine has been
    released, the first [CloseC] carrying its handle. *)
Theorem any_schedule_releases_bounded e n schedule :
  engine_handle e <> 0 ->
  let s := run_schedule schedule (entering e n) in
  (length (s_calls s) <= n)%nat
  /\ Forall (fun c => c = CloseC (engine_handle e) \/ c = CloseC 0)
       (s_calls s)
  /\ (finished ∈ s_pcs s ->
      exists rest, s_calls s = CloseC (engine_handle e) :: rest).
Proof.
  intros Hlive s.
  destruct (run_schedule_reachable (engine_handle e) schedule
              (entering e n) Hlive (entering_reachable e n))
    as (_ & Hargs & Hlen & Hnone & Hhead).
  fold s in Hargs, Hlen, Hnone, Hhead.
  assert (Hn : length (s_pcs s) = n).
  { unfold s. rewrite run_schedule_length. simpl. apply length_replicate. }
  pose proof (count_past_check_le_length (s_pcs s)) as Hcount.
  split; [lia|]. split; [assumption|].
  intros Hfin. apply Hhead. intros Hempty.
  apply list_elem_of_lookup in Hfin as [i Hi].
  pose proof (past_check_le_count _ _ _ Hi) as Hpast. simpl in Hpast.
  destruct (Hnone Hempty) as [_ Hzero]. lia.
Qed.

(** * Examples

    The theorems above at concrete answers of the boundary. *)


(** A copy of the engine with handle 7 is destroyed, then the
    original. *)
Lemma copied_engine_closes_twice_witness :
  engine_handle {| engine_handle := 7 |} <> 0
  /\ exists w1 w2,
       Engine_dtor scripted
         (Engine_copy {| engine_handle := 7 |}, fresh_world [])
       = (Returned tt, ({| engine_handle := 0 |}, w1))
       /\ Engine_dtor scripted ({| engine_handle := 7 |}, w1)
          = (Returned tt, ({| engine_handle := 0 |}, w2))
       /\ trace w2 = [Ecall (CloseC 7); Ecall (CloseC 7)]
       /\ close_calls w2 = 2%nat.
Proof.
  split; [simpl; lia|].
  apply (copied_engine_closes_twice scripted
           {| engine_handle := 7 |} (fresh_world [])).
  simpl; lia.
Defined.

(** [CreateNamespaceC] reports no error and returns 0. *)
Lemma namespace_operations_wrap_sentinel_witness :
  out_err (answer scripted (op_createNamespace {| engine_handle := 1 |})
             (fresh_world [ok 0])) = None
  /\ fst (perform scripted sample_cast sample_parse
            (op_createNamespace {| engine_handle := 1 |})
            (fresh_world [ok 0]))
     = Returned (v_namespace {| namespace_handle := 0 |}).
Proof.
  split; [reflexivity|].
  apply (namespace_operations_wrap_sentinel scripted sample_cast sample_parse
           _ {| engine_handle := 1 |} 0 (fresh_world [ok 0]));
    [left|..]; reflexivity.
Defined.

(** [MutateC] stores an error message next to a result string. *)
Lemma reported_error_is_thrown_witness :
  fst (perform scripted sample_cast sample_parse
         (op_mutate {| namespace_handle := 3 |} "set")
         (fresh_world [{| ret_val := 0; out_result := Some sample_payload;
                          out_err := Some "schema violation" |}]))
  = Thrown (runtime_error "schema violation").
Proof.
  exact (proj1 (reported_error_is_thrown scripted sample_cast sample_parse
                  (op_mutate {| namespace_handle := 3 |} "set")
                  (fresh_world [{| ret_val := 0;
                                   out_result := Some sample_payload;
                                   out_err := Some "schema violation" |}])
                  "schema violation" eq_refl)).
Defined.

(** [QueryC] stores an error message next to a result string: the
    result buffer at address 0 is still allocated afterwards. *)
Lemma reported_error_leaks_result_witness :
  exists w',
    perform scripted sample_cast sample_parse
      (op_query {| namespace_handle := 3 |} "all")
      (fresh_world [{| ret_val := 0; out_result := Some "[]";
                       out_err := Some "timeout" |}])
    = (Thrown (runtime_error "timeout"), w')
    /\ trace w' = [Ecall (QueryC 3 "all"); Efree 1%N]
    /\ heap w' !! 0%N = Some "[]".
Proof.
  exact (reported_error_leaks_result scripted sample_cast sample_parse
           (op_query {| namespace_handle := 3 |} "all")
           (fresh_world [{| ret_val := 0; out_result := Some "[]";
                            out_err := Some "timeout" |}])
           "[]" "timeout" eq_refl eq_refl).
Defined.



(** C5 (as stated, refuted). The payload [{"a":-1,"b":7}] holds a value
    that is no unsigned integer, yet [mutate] succeeds and binds ["a"]
    to 2^64 - 1. *)
Lemma negative_value_is_coerced :
  sample_parse sample_payload
  = inr (j_object [("a", j_number_integer (-1)); ("b", j_number_unsigned 7)])
  /\ fst (mutate scripted sample_cast sample_parse "set"
            ({| namespace_handle := 3 |},
             fresh_world [replied sample_payload]))
     = Returned (<["a" := 18446744073709551615]> (<["b" := 7]> ∅)).
Proof. split; vm_compute; reflexivity. Qed.

(** The same payload through the amended statement. *)
Lemma mutate_decodes_every_key_witness :
  exists m : gmap string Z,
    fst (mutate scripted sample_cast sample_parse "set"
           ({| namespace_handle := 3 |},
            fresh_world [replied sample_payload]))
    = Returned m
    /\ dom m = list_to_set ["a"; "b"]
    /\ m !! "a" = Some ((-1) mod 2 ^ 64)
    /\ m !! "b" = Some 7.
Proof.
  assert (Hnodup : NoDup ["a"; "b"]).
  { apply NoDup_cons. split; [|apply NoDup_singleton].
    rewrite list_elem_of_singleton. discriminate. }
  destruct (mutate_decodes_every_key scripted sample_cast sample_parse
              {| namespace_handle := 3 |} "set"
              (fresh_world [replied sample_payload]) sample_payload
              [("a", j_number_integer (-1)); ("b", j_number_unsigned 7)]
              eq_refl eq_refl eq_refl Hnodup) as [Hnum _].
  destruct (Hnum eq_refl) as (m & Hm & Hdom & Hu & Hi & _).
  exists m. repeat split; [assumption | assumption | |].
  - apply Hi. set_solver.
  - apply Hu. set_solver.
Defined.

(** C8 (as stated, refuted). Two threads enter [close()] on the engine
    with handle 5 and alternate: both pass the test before either stores
    the sentinel, and [CloseC(5)] is called twice. *)
Lemma overlapping_closes_release_twice :
  s_calls (run_schedule [0; 1; 0; 1; 0; 1]%nat
             (entering {| engine_handle := 5 |} 2))
  = [CloseC 5; CloseC 5].
Proof. reflexivity. Qed.

(** Three calls of [close()] by two threads, one after the other. *)
Lemma serial_closes_release_once_witness :
  s_calls (run_schedule (one_at_a_time [1; 0; 1]%nat)
             (entering {| engine_handle := 5 |} 2))
  = [CloseC 5]
  /\ s_engine (run_schedule (one_at_a_time [1; 0; 1]%nat)
                 (entering {| engine_handle := 5 |} 2))
     = {| engine_handle := 0 |}.
Proof.
  apply (serial_closes_release_once {| engine_handle := 5 |} 2 [1; 0; 1]%nat).
  - simpl; lia.
  - discriminate.
  - repeat constructor; lia.
Defined.

(** [QueryC] stores a result and no error: the one buffer handed out,
    at address 0, is freed once. *)
Lemma buffers_released_once_witness :
  exists o w',
    perform scripted sample_cast sample_parse
      (op_query {| namespace_handle := 3 |} "all")
      (fresh_world [replied "[]"]) = (o, w')
    /\ o <> Undefined
    /\ frees_of (trace w') = [0%N]
    /\ (forall p, p ∈ [0%N] -> heap w' !! p = None).
Proof.
  apply (buffers_released_once scripted sample_cast sample_parse
           (op_query {| namespace_handle := 3 |} "all")
           (fresh_world [replied "[]"])).
  right; reflexivity.
Defined.

(** [GetNamespaceC] reports no error and returns 42. *)
Lemma namespace_handle_is_returned_value_witness :
  fst (perform scripted sample_cast sample_parse
         (op_getNamespace {| engine_handle := 1 |} 9)
         (fresh_world [ok 42]))
  = Returned (v_namespace {| namespace_handle := 42 |})
  <-> out_err (answer scripted (op_getNamespace {| engine_handle := 1 |} 9)
                 (fresh_world [ok 42])) = None
      /\ namespace_handle {| namespace_handle := 42 |}
         = ret_val (answer scripted
                      (op_getNamespace {| engine_handle := 1 |} 9)
                      (fresh_world [ok 42])).
Proof.
  apply (namespace_handle_is_returned_value scripted sample_cast sample_parse
           _ {| engine_handle := 1 |} 9).
  right; reflexivity.
Defined.

(** [alterSchema] when [AlterSchemaC] reports no error. *)
Lemma void_operations_succeed_iff_no_error_witness :
  fst (perform scripted sample_cast sample_parse
         (op_alterSchema {| namespace_handle := 3 |} "name: string .")
         (fresh_world [ok 0]))
  = Returned v_void
  <-> out_err (answer scripted
                 (op_alterSchema {| namespace_handle := 3 |} "name: string .")
                 (fresh_world [ok 0])) = None.
Proof.
  apply (void_operations_succeed_iff_no_error scripted sample_cast
           sample_parse
           (op_alterSchema {| namespace_handle := 3 |} "name: string .")).
  reflexivity.
Defined.

(** [MutateC] stores a payload that is no JSON text. *)
Lemma mutate_decode_edges_witness :
  fst (mutate scripted sample_cast sample_parse "set"
         ({| namespace_handle := 3 |}, fresh_world [replied "oops"]))
  = Thrown (runtime_error
              ("Failed to parse mutation result: "
               +:+ "[json.exception.parse_error.101] parse error")).
Proof.
  destruct (mutate_decode_edges scripted sample_cast sample_parse
              {| namespace_handle := 3 |} "set"
              (fresh_world [replied "oops"]) "oops" eq_refl eq_refl)
    as [Hparse _].
  apply (Hparse {| exc_id := 101;
                   json_what :=
                     "[json.exception.parse_error.101] parse error" |}).
  reflexivity.
Defined.

(** A failing [dropAll], a [close()] and a late [createNamespace] on
    the engine with handle 4, then its destruction. *)
Lemma engine_lifetime_releases_once_witness :
  exists w' before after,
    (session scripted [m_dropAll; m_close; m_createNamespace]
     ;;; Engine_dtor scripted)
      ({| engine_handle := 4 |},
       fresh_world [{| ret_val := 0; out_result := None;
                       out_err := Some "read-only" |}])
    = (Returned tt, ({| engine_handle := 0 |}, w'))
    /\ calls_of (trace w') = [] ++ before ++ CloseC 4 :: after
    /\ Forall (fun c => is_CloseC c = false /\ engine_arg c = Some 4) before
    /\ Forall (fun c => is_CloseC c = false /\ engine_arg c = Some 0) after
    /\ close_calls w' = 1%nat.
Proof.
  apply (engine_lifetime_releases_once scripted {| engine_handle := 4 |}
           [m_dropAll; m_close; m_createNamespace]
           (fresh_world [{| ret_val := 0; out_result := None;
                            out_err := Some "read-only" |}])).
  simpl; lia.
Defined.

(** Two threads whose steps overlap, as in the schedule that releases
    twice. *)
Lemma any_schedule_releases_bounded_witness :
  (length (s_calls (run_schedule [0; 1; 0; 1; 0; 1]%nat
                      (entering {| engine_handle := 5 |} 2))) <= 2)%nat
  /\ Forall (fun c => c = CloseC 5 \/ c = CloseC 0)
       (s_calls (run_schedule [0; 1; 0; 1; 0; 1]%nat
                   (entering {| engine_handle := 5 |} 2)))
  /\ (finished ∈ s_pcs (run_schedule [0; 1; 0; 1; 0; 1]%nat
                          (entering {| engine_handle := 5 |} 2)) ->
      exists rest,
        s_calls (run_schedule [0; 1; 0; 1; 0; 1]%nat
                   (entering {| engine_handle := 5 |} 2))
        = CloseC 5 :: rest).
Proof.
  apply (any_schedule_releases_bounded {| engine_handle := 5 |} 2
           [0; 1; 0; 1; 0; 1]%nat).
  simpl; lia.
Defined.

(** [QueryC] stores the five bytes a, b, NUL, c, d: [query] returns the
    C string, [ab]. *)
Lemma query_result_ends_at_nul :
  fst (query scripted "all"
         ({| namespace_handle := 3 |},
          fresh_world
            [replied (String "a" (String "b" (String Ascii.zero "cd")))]))
  = Returned "ab".
Proof. reflexivity. Qed.
